(** * pkg/api/client.go: the API client and its cancellable request executor

    A shallow embedding of [NewClient], [httpClient.URL] and [httpClient.Do].
    [NewClient] and [URL] are sequential and are embedded as functions.  [Do]
    runs a second goroutine and races it against the context, so it is
    embedded as a small-step machine over an explicit scheduler: one action
    per step of the calling goroutine, of the reading goroutine, or of the
    environment cancelling the context. *)

From Stdlib Require Import ZArith String Lia.
From stdpp Require Import base option list strings.

Open Scope Z_scope.
Open Scope string_scope.
Open Scope list_scope.

(** ** Go values *)

(** A non-nil value of Go's [error] interface, identified by its message. *)
Inductive error := errorString (msg : string).

(** The [error] interface itself: [None] is [nil]. *)
Definition goerror : Type := option error.

(** [[]byte]: [None] is the nil slice. *)
Definition slice : Type := option (list Byte.byte).

(** [context.Context].  A context that can never be cancelled (such as
    [context.Background()]) has a nil [Done()] channel. *)
Record Context := {
  ctx_id : nat;
  ctx_can_cancel : bool
}.

(** [*url.URL] points to one of these. *)
Record URL := { url_string : string }.

(** [http.Request], with the fields this package touches. *)
Record Request := {
  req_Method : string;
  req_URL : option URL;
  req_ctx : option Context
}.

(** [io.ReadCloser] as seen from this package.  [rc_ReadAll n e] is what
    [ioutil.ReadAll] returns on it when [n] calls of [Close] have already
    been made and the context's [Err()] is [e] at that moment;
    [rc_Close n] is what the call of [Close] made after [n] earlier ones
    returns. *)
Record ReadCloser := {
  rc_ReadAll : nat -> goerror -> slice * goerror;
  rc_Close : nat -> goerror
}.

(** [http.Response]. *)
Record Response := {
  StatusCode : Z;
  Body : ReadCloser
}.

(** [http.RoundTripper]: its one method, [RoundTrip]. *)
Definition RoundTripper := Request -> option Response * goerror.

(** [time.Duration] counts nanoseconds. *)
Definition Duration := Z.
Definition Nanosecond : Duration := 1.
Definition Microsecond : Duration := 1000 * Nanosecond.
Definition Millisecond : Duration := 1000 * Microsecond.
Definition Second : Duration := 1000 * Millisecond.

(** [http.Client], with the two fields [NewClient] sets. *)
Record http_Client := {
  Transport : option RoundTripper;
  Timeout : Duration
}.

(** A resolver [func(string) *url.URL]; [None] is the nil func. *)
Definition resolver := option (string -> option URL).

(** ** Config *)

(** The [Config] interface.  Each method returns a Go pair (value, error). *)
Record Config := {
  Endpoints : resolver * goerror;
  Authorize : option Context -> option RoundTripper ->
              option RoundTripper * goerror
}.

(** ** httpClient *)

Record httpClient := {
  client : http_Client;
  endpoints : resolver
}.

Definition set_Timeout (d : Duration) (hc : httpClient) : httpClient :=
  {| client := {| Transport := Transport (client hc); Timeout := d |};
     endpoints := endpoints hc |}.

Definition set_Transport (t : option RoundTripper) (hc : httpClient)
  : httpClient :=
  {| client := {| Transport := t; Timeout := Timeout (client hc) |};
     endpoints := endpoints hc |}.

Definition set_endpoints (f : resolver) (hc : httpClient) : httpClient :=
  {| client := client hc; endpoints := f |}.

(** [&httpClient{}]: the zero value. *)
Definition zero_httpClient : httpClient :=
  {| client := {| Transport := None; Timeout := 0 |}; endpoints := None |}.

(** [NewClient].  The returned [Client] interface is [None] when nil. *)
Definition NewClient (ctx : option Context) (cfg : Config)
    (transport : option RoundTripper) : option httpClient * goerror :=
  let hc := zero_httpClient in
  let hc := set_Timeout (10 * Second) hc in
  let '(t, err) := Authorize cfg ctx transport in
  let hc := set_Transport t hc in
  match err with
  | Some e => (None, Some e)
  | None =>
      let '(f, err) := Endpoints cfg in
      let hc := set_endpoints f hc in
      match err with
      | Some e => (None, Some e)
      | None => (Some hc, None)
      end
  end.

(** The methods of [Config]. *)
Inductive ConfigOp := OpAuthorize | OpEndpoints.

(** The calls [NewClient] makes on the configuration, in order, each with
    the error it returned: [Endpoints] is only called once [Authorize] has
    returned without error. *)
Definition NewClient_calls (ctx : option Context) (cfg : Config)
    (transport : option RoundTripper) : list (ConfigOp * goerror) :=
  let '(_, err) := Authorize cfg ctx transport in
  match err with
  | Some _ => [(OpAuthorize, err)]
  | None =>
      let '(_, err') := Endpoints cfg in
      [(OpAuthorize, err); (OpEndpoints, err')]
  end.

(** How a Go call ends: with a value, or in a run-time panic. *)
Inductive outcome (A : Type) :=
| Returns (a : A)
| Panics.
Arguments Returns {A} a.
Arguments Panics {A}.

(** Calling a func value; calling the nil func panics. *)
Definition call_resolver (f : resolver) (ep : string) : outcome (option URL) :=
  match f with
  | Some g => Returns (g ep)
  | None => Panics
  end.

(** [httpClient.URL]. *)
Definition httpClient_URL (c : httpClient) (ep : string)
  : outcome (option URL) :=
  call_resolver (endpoints c) ep.

(** ** The machine that runs [httpClient.Do] *)

(** What lies outside this package: [http.Client.Do] of [net/http],
    as a function of the client value and of the request it is given. *)
Record Env := {
  net_http_Do : http_Client -> Request -> option Response * goerror
}.

(** Where the calling goroutine stands in [Do]. *)
Inductive MainPc :=
| PBind        (* if ctx != nil { req = req.WithContext(ctx) } *)
| PRoundTrip   (* resp, err := c.client.Do(req); if err != nil { return } *)
| PDefer       (* defer resp.Body.Close() *)
| PSpawn       (* var body; done := make(chan struct{}); go func() {...}() *)
| PSelect      (* select { case <-ctx.Done(): ... case <-done: } *)
| PJoin        (* <-done, inside the ctx.Done() case *)
| PClose       (* err = resp.Body.Close(); if err == nil { err = ctx.Err() } *)
| PReturn      (* return resp, body, err *)
| PDeferred    (* the deferred resp.Body.Close() runs *)
| PReturned    (* Do has returned to its caller *)
| PPanicked.   (* Do has left by a run-time panic *)

(** Where the reading goroutine stands. *)
Inductive ReaderPc :=
| RIdle        (* not spawned *)
| RRead        (* body, err = ioutil.ReadAll(resp.Body) *)
| RSignal      (* close(done) *)
| RExit.       (* finished *)

(** Which case of the select was taken. *)
Inductive Path := PathCancel | PathDone.

(** What [Do] hands back: (response, body bytes, error). *)
Definition Result : Type := option Response * slice * goerror.

Record State := {
  pc : MainPc;
  reader : ReaderPc;
  heap : list Request;        (* the requests that [*http.Request] values point to *)
  req : nat;                  (* the local variable [req] *)
  resp : option Response;     (* the local variable [resp] *)
  body : slice;               (* [body], shared with the reading goroutine *)
  err : goerror;              (* [err], shared with the reading goroutine *)
  done : bool;                (* whether channel [done] has been closed *)
  deferred : bool;            (* whether [resp.Body.Close()] is deferred *)
  panicking : bool;
  ctx_err : goerror;          (* what [ctx.Err()] returns now *)
  closes : nat;               (* calls of [resp.Body.Close()] made so far *)
  path : option Path;         (* the select case taken, once taken *)
  read_out : option (slice * goerror);   (* what ReadAll returned, once it has *)
  sent : option (http_Client * Request); (* what was given to net/http *)
  result : option Result
}.

Definition set_pc (v : MainPc) (s : State) : State :=
  {| pc := v; reader := reader s; heap := heap s; req := req s;
     resp := resp s; body := body s; err := err s; done := done s;
     deferred := deferred s; panicking := panicking s; ctx_err := ctx_err s;
     closes := closes s; path := path s; read_out := read_out s;
     sent := sent s; result := result s |}.

Definition set_reader (v : ReaderPc) (s : State) : State :=
  {| pc := pc s; reader := v; heap := heap s; req := req s;
     resp := resp s; body := body s; err := err s; done := done s;
     deferred := deferred s; panicking := panicking s; ctx_err := ctx_err s;
     closes := closes s; path := path s; read_out := read_out s;
     sent := sent s; result := result s |}.

Definition set_heap (v : list Request) (s : State) : State :=
  {| pc := pc s; reader := reader s; heap := v; req := req s;
     resp := resp s; body := body s; err := err s; done := done s;
     deferred := deferred s; panicking := panicking s; ctx_err := ctx_err s;
     closes := closes s; path := path s; read_out := read_out s;
     sent := sent s; result := result s |}.

Definition set_req (v : nat) (s : State) : State :=
  {| pc := pc s; reader := reader s; heap := heap s; req := v;
     resp := resp s; body := body s; err := err s; done := done s;
     deferred := deferred s; panicking := panicking s; ctx_err := ctx_err s;
     closes := closes s; path := path s; read_out := read_out s;
     sent := sent s; result := result s |}.

Definition set_resp (v : option Response) (s : State) : State :=
  {| pc := pc s; reader := reader s; heap := heap s; req := req s;
     resp := v; body := body s; err := err s; done := done s;
     deferred := deferred s; panicking := panicking s; ctx_err := ctx_err s;
     closes := closes s; path := path s; read_out := read_out s;
     sent := sent s; result := result s |}.

Definition set_body (v : slice) (s : State) : State :=
  {| pc := pc s; reader := reader s; heap := heap s; req := req s;
     resp := resp s; body := v; err := err s; done := done s;
     deferred := deferred s; panicking := panicking s; ctx_err := ctx_err s;
     closes := closes s; path := path s; read_out := read_out s;
     sent := sent s; result := result s |}.

Definition set_err (v : goerror) (s : State) : State :=
  {| pc := pc s; reader := reader s; heap := heap s; req := req s;
     resp := resp s; body := body s; err := v; done := done s;
     deferred := deferred s; panicking := panicking s; ctx_err := ctx_err s;
     closes := closes s; path := path s; read_out := read_out s;
     sent := sent s; result := result s |}.

Definition set_done (v : bool) (s : State) : State :=
  {| pc := pc s; reader := reader s; heap := heap s; req := req s;
     resp := resp s; body := body s; err := err s; done := v;
     deferred := deferred s; panicking := panicking s; ctx_err := ctx_err s;
     closes := closes s; path := path s; read_out := read_out s;
     sent := sent s; result := result s |}.

Definition set_deferred (v : bool) (s : State) : State :=
  {| pc := pc s; reader := reader s; heap := heap s; req := req s;
     resp := resp s; body := body s; err := err s; done := done s;
     deferred := v; panicking := panicking s; ctx_err := ctx_err s;
     closes := closes s; path := path s; read_out := read_out s;
     sent := sent s; result := result s |}.

Definition set_panicking (v : bool) (s : State) : State :=
  {| pc := pc s; reader := reader s; heap := heap s; req := req s;
     resp := resp s; body := body s; err := err s; done := done s;
     deferred := deferred s; panicking := v; ctx_err := ctx_err s;
     closes := closes s; path := path s; read_out := read_out s;
     sent := sent s; result := result s |}.

Definition set_ctx_err (v : goerror) (s : State) : State :=
  {| pc := pc s; reader := reader s; heap := heap s; req := req s;
     resp := resp s; body := body s; err := err s; done := done s;
     deferred := deferred s; panicking := panicking s; ctx_err := v;
     closes := closes s; path := path s; read_out := read_out s;
     sent := sent s; result := result s |}.

Definition set_closes (v : nat) (s : State) : State :=
  {| pc := pc s; reader := reader s; heap := heap s; req := req s;
     resp := resp s; body := body s; err := err s; done := done s;
     deferred := deferred s; panicking := panicking s; ctx_err := ctx_err s;
     closes := v; path := path s; read_out := read_out s;
     sent := sent s; result := result s |}.

Definition set_path (v : option Path) (s : State) : State :=
  {| pc := pc s; reader := reader s; heap := heap s; req := req s;
     resp := resp s; body := body s; err := err s; done := done s;
     deferred := deferred s; panicking := panicking s; ctx_err := ctx_err s;
     closes := closes s; path := v; read_out := read_out s;
     sent := sent s; result := result s |}.

Definition set_read_out (v : option (slice * goerror)) (s : State) : State :=
  {| pc := pc s; reader := reader s; heap := heap s; req := req s;
     resp := resp s; body := body s; err := err s; done := done s;
     deferred := deferred s; panicking := panicking s; ctx_err := ctx_err s;
     closes := closes s; path := path s; read_out := v;
     sent := sent s; result := result s |}.

Definition set_sent (v : option (http_Client * Request)) (s : State) : State :=
  {| pc := pc s; reader := reader s; heap := heap s; req := req s;
     resp := resp s; body := body s; err := err s; done := done s;
     deferred := deferred s; panicking := panicking s; ctx_err := ctx_err s;
     closes := closes s; path := path s; read_out := read_out s;
     sent := v; result := result s |}.

Definition set_result (v : option Result) (s : State) : State :=
  {| pc := pc s; reader := reader s; heap := heap s; req := req s;
     resp := resp s; body := body s; err := err s; done := done s;
     deferred := deferred s; panicking := panicking s; ctx_err := ctx_err s;
     closes := closes s; path := path s; read_out := read_out s;
     sent := sent s; result := v |}.

(** [Request.WithContext] of net/http on a non-nil context:
    [r2 := new(Request); *r2 = *r; r2.ctx = ctx; return r2]. *)
Definition with_ctx (r : Request) (cx : Context) : Request :=
  {| req_Method := req_Method r; req_URL := req_URL r; req_ctx := Some cx |}.

(** What the scheduler may pick next.  [AMain prefer_ctx] lets the calling
    goroutine take a step; at the select, when both channels are ready, Go
    picks a case at random and [prefer_ctx] is that pick. *)
Inductive Act :=
| AMain (prefer_ctx : bool)
| AReader
| ACancel (e : error).

Section Do.

Variable env : Env.
Variable c : httpClient.
Variable ctx : option Context.

(** The state in which [c.Do(ctx, req)] is entered; [req] is the pointer [p]
    into the caller's heap [h]. *)
Definition init (h : list Request) (p : nat) : State :=
  {| pc := PBind; reader := RIdle; heap := h; req := p; resp := None;
     body := None; err := None; done := false; deferred := false;
     panicking := false; ctx_err := None; closes := 0; path := None;
     read_out := None; sent := None; result := None |}.

(** A run-time panic unwinds through the deferred call, if there is one. *)
Definition unwind (s : State) : State :=
  set_pc (if deferred s then PDeferred else PPanicked) (set_panicking true s).

(** Whether [<-ctx.Done()] can proceed. *)
Definition ctx_ready (cx : Context) (s : State) : bool :=
  ctx_can_cancel cx && match ctx_err s with Some _ => true | None => false end.

Definition take_cancel (s : State) : State :=
  set_pc PJoin (set_path (Some PathCancel) s).

Definition take_done (s : State) : State :=
  set_pc PReturn (set_path (Some PathDone) s).

(** One step of the goroutine that called [Do]. *)
Definition main_step (prefer_ctx : bool) (s : State) : option State :=
  match pc s with
  | PBind =>
      match ctx with
      | Some cx =>
          match heap s !! req s with
          | Some r =>
              Some (set_pc PRoundTrip
                     (set_req (length (heap s))
                       (set_heap (heap s ++ [with_ctx r cx]) s)))
          | None => Some (unwind s)
          end
      | None => Some (set_pc PRoundTrip s)
      end
  | PRoundTrip =>
      match heap s !! req s with
      | Some r =>
          let '(rp, e) := net_http_Do env (client c) r in
          let s := set_sent (Some (client c, r)) (set_err e (set_resp rp s)) in
          match e with
          | Some e' =>
              Some (set_pc PReturned
                     (set_result (Some (None, None, Some e')) s))
          | None => Some (set_pc PDefer s)
          end
      | None => Some (unwind s)
      end
  | PDefer =>
      match resp s with
      | Some _ => Some (set_pc PSpawn (set_deferred true s))
      | None => Some (unwind s)
      end
  | PSpawn =>
      Some (set_pc PSelect
             (set_reader RRead (set_done false (set_body None s))))
  | PSelect =>
      match ctx with
      | None => Some (unwind s)
      | Some cx =>
          match ctx_ready cx s, done s with
          | true, true =>
              if prefer_ctx then Some (take_cancel s) else Some (take_done s)
          | true, false => Some (take_cancel s)
          | false, true => Some (take_done s)
          | false, false => None
          end
      end
  | PJoin => if done s then Some (set_pc PClose s) else None
  | PClose =>
      match resp s with
      | Some r =>
          let e := rc_Close (Body r) (closes s) in
          let s := set_closes (S (closes s)) s in
          let s := set_err (match e with Some _ => e | None => ctx_err s end) s
          in Some (set_pc PReturn s)
      | None => None
      end
  | PReturn =>
      Some (set_pc (if deferred s then PDeferred else PReturned)
             (set_result (Some (resp s, body s, err s)) s))
  | PDeferred =>
      match resp s with
      | Some r =>
          Some (set_pc (if panicking s then PPanicked else PReturned)
                 (set_closes (S (closes s)) s))
      | None => None
      end
  | PReturned | PPanicked => None
  end.

(** One step of the goroutine that reads the body. *)
Definition reader_step (s : State) : option State :=
  match reader s with
  | RRead =>
      match resp s with
      | Some r =>
          let '(b, e) := rc_ReadAll (Body r) (closes s) (ctx_err s) in
          Some (set_reader RSignal
                 (set_read_out (Some (b, e)) (set_err e (set_body b s))))
      | None => None
      end
  | RSignal => Some (set_reader RExit (set_done true s))
  | RIdle | RExit => None
  end.

(** The environment cancels the context (or its deadline passes): from then
    on [ctx.Err()] is [e] and [ctx.Done()] is closed. *)
Definition cancel_step (e : error) (s : State) : option State :=
  match ctx with
  | Some cx =>
      if ctx_can_cancel cx then
        match ctx_err s with
        | None => Some (set_ctx_err (Some e) s)
        | Some _ => None
        end
      else None
  | None => None
  end.

Definition step (a : Act) (s : State) : option State :=
  match a with
  | AMain b => main_step b s
  | AReader => reader_step s
  | ACancel e => cancel_step e s
  end.

(** Running a schedule; an action that is not enabled is skipped. *)
Fixpoint run (sched : list Act) (s : State) : State :=
  match sched with
  | [] => s
  | a :: rest => run rest (default s (step a s))
  end.

(** [Do] applied to the request at [p] in heap [h], under schedule [sched]. *)
Definition Do (h : list Request) (p : nat) (sched : list Act) : State :=
  run sched (init h p).

(** The states [Do] can be in. *)
Inductive reachable (h : list Request) (p : nat) : State -> Prop :=
| reach_init : reachable h p (init h p)
| reach_step a s s' :
    reachable h p s -> step a s = Some s' -> reachable h p s'.

End Do.

(** ** Concrete collaborators, for running the definitions *)

Module Sample.

(** [context.Canceled] and [context.DeadlineExceeded]. *)
Definition Canceled : error := errorString "context canceled".
Definition DeadlineExceeded : error := errorString "context deadline exceeded".

Definition refused : error := errorString "connection refused".
Definition close_failed : error := errorString "close failed".
Definition denied : error := errorString "authorization failed".
Definition no_endpoints : error := errorString "no endpoints".

(** The two bytes of ["ok"]. *)
Definition ok_bytes : list Byte.byte := [Byte.x6f; Byte.x6b].

(** A body that reads as ["ok"] and closes cleanly. *)
Definition body_ok : ReadCloser :=
  {| rc_ReadAll := fun _ _ => (Some ok_bytes, None);
     rc_Close := fun _ => None |}.

(** The same body, whose first [Close] fails. *)
Definition body_bad_close : ReadCloser :=
  {| rc_ReadAll := fun _ _ => (Some ok_bytes, None);
     rc_Close := fun n => match n with O => Some close_failed | _ => None end |}.

Definition resp_ok : Response := {| StatusCode := 200; Body := body_ok |}.
Definition resp_bad_close : Response :=
  {| StatusCode := 200; Body := body_bad_close |}.

(** A server that answers 200 ["ok"]. *)
Definition env_ok : Env := {| net_http_Do := fun _ _ => (Some resp_ok, None) |}.

Definition env_bad_close : Env :=
  {| net_http_Do := fun _ _ => (Some resp_bad_close, None) |}.

(** A server that cannot be reached. *)
Definition env_refused : Env :=
  {| net_http_Do := fun _ _ => (None, Some refused) |}.

Definition example_url (ep : string) : option URL :=
  Some {| url_string := String.append "http://example.test/" ep |}.

(** Endpoints under [http://example.test/], no authorization. *)
Definition cfg_plain : Config :=
  {| Endpoints := (Some example_url, None);
     Authorize := fun _ t => (t, None) |}.

(** A configuration whose [Authorize] fails. *)
Definition cfg_denied : Config :=
  {| Endpoints := (Some example_url, None);
     Authorize := fun _ _ => (None, Some denied) |}.

(** A configuration whose [Endpoints] fails. *)
Definition cfg_no_endpoints : Config :=
  {| Endpoints := (None, Some no_endpoints);
     Authorize := fun _ t => (t, None) |}.

Definition a_client : httpClient :=
  {| client := {| Transport := None; Timeout := 10 * Second |};
     endpoints := Some example_url |}.

Definition a_ctx : Context := {| ctx_id := 1; ctx_can_cancel := true |}.

Definition get_foo : Request :=
  {| req_Method := "GET";
     req_URL := Some {| url_string := "http://example.test/foo" |};
     req_ctx := None |}.

(** The read finishes and signals before the caller reaches the select. *)
Definition sched_done : list Act :=
  [AMain false; AMain false; AMain false; AMain false;
   AReader; AReader; AMain false; AMain false; AMain false].

(** The context is cancelled while the read is still running. *)
Definition sched_cancel : list Act :=
  [AMain false; AMain false; AMain false; AMain false;
   ACancel Canceled; AMain true; AReader; AReader;
   AMain false; AMain false; AMain false; AMain false].

(** The calling goroutine alone, as far as it gets. *)
Definition sched_main_only : list Act :=
  [AMain false; AMain false; AMain false; AMain false;
   AMain false; AMain false; AMain false].

End Sample.

(** ** What holds in every state [Do] can reach *)

Section Invariants.

Variable env : Env.
Variable c : httpClient.
Variable ctx : option Context.
Variable h : list Request.
Variable p : nat.

(** Nothing of the read or of the select has happened yet. *)
Definition untouched (s : State) : Prop :=
  reader s = RIdle /\ closes s = 0%nat /\ path s = None /\
  panicking s = false /\ done s = false /\ read_out s = None /\
  result s = None.

(** The round trip gave a response and its [Close] is deferred. *)
Definition armed (s : State) : Prop :=
  deferred s = true /\ is_Some (resp s).

(** The reading goroutine has finished and said so. *)
Definition joined (s : State) : Prop :=
  reader s = RExit /\ done s = true.

(** A context was supplied and it has been cancelled. *)
Definition cancelled (s : State) : Prop :=
  is_Some ctx /\ is_Some (ctx_err s).

(** The progress of the reading goroutine, while the caller waits. *)
Definition reading (s : State) : Prop :=
  match reader s with
  | RIdle => False
  | RRead => done s = false /\ read_out s = None
  | RSignal => done s = false /\ read_out s = Some (body s, err s)
  | RExit => done s = true /\ read_out s = Some (body s, err s)
  end.

(** The error the cancellation case leaves in [err]. *)
Definition cancel_err (s : State) : goerror :=
  match resp s with
  | Some r =>
      match rc_Close (Body r) 0 with
      | Some e => Some e
      | None => ctx_err s
      end
  | None => None
  end.

(** What holds from the return statement on, by the select case taken. *)
Definition after_select (n : nat) (s : State) : Prop :=
  joined s /\ armed s /\ is_Some ctx /\
  match path s with
  | Some PathDone =>
      closes s = n /\ read_out s = Some (body s, err s)
  | Some PathCancel =>
      closes s = S n /\ cancelled s /\ err s = cancel_err s /\
      exists e, read_out s = Some (body s, e)
  | None => False
  end.

(** The control invariant, by program point of the calling goroutine. *)
Definition Inv (s : State) : Prop :=
  (ctx = None -> ctx_err s = None) /\
  match pc s with
  | PBind | PRoundTrip =>
      untouched s /\ deferred s = false /\ resp s = None
  | PDefer =>
      untouched s /\ deferred s = false /\ err s = None
  | PSpawn =>
      untouched s /\ armed s
  | PSelect =>
      armed s /\ reading s /\ closes s = 0%nat /\ path s = None /\
      panicking s = false /\ result s = None
  | PJoin =>
      armed s /\ reading s /\ closes s = 0%nat /\
      path s = Some PathCancel /\ cancelled s /\
      panicking s = false /\ result s = None
  | PClose =>
      armed s /\ joined s /\ closes s = 0%nat /\
      path s = Some PathCancel /\ cancelled s /\
      panicking s = false /\ result s = None /\
      exists e, read_out s = Some (body s, e)
  | PReturn =>
      after_select 0 s /\ panicking s = false /\ result s = None
  | PDeferred =>
      if panicking s then
        ctx = None /\ armed s /\ reader s <> RIdle /\ closes s = 0%nat /\
        path s = None /\ result s = None
      else
        after_select 0 s /\ result s = Some (resp s, body s, err s)
  | PReturned =>
      panicking s = false /\
      match path s with
      | None =>
          untouched (set_result None s) /\ deferred s = false /\
          exists e, err s = Some e /\ result s = Some (None, None, Some e)
      | Some _ =>
          after_select 1 s /\ result s = Some (resp s, body s, err s)
      end
  | PPanicked =>
      panicking s = true /\ path s = None /\ result s = None /\
      if deferred s then
        ctx = None /\ armed s /\ reader s <> RIdle /\ closes s = 1%nat
      else
        reader s = RIdle /\ closes s = 0%nat /\ read_out s = None
  end.

(** The heap invariant: [Do] only ever allocates, and at most the one copy
    that carries the context. *)
Definition HeapInv (s : State) : Prop :=
  match pc s with
  | PBind => heap s = h /\ req s = p
  | _ =>
      match ctx with
      | Some cx =>
          match h !! p with
          | Some r => heap s = h ++ [with_ctx r cx] /\ req s = length h
          | None => heap s = h /\ req s = p
          end
      | None => heap s = h /\ req s = p
      end
  end.

(** The round-trip invariant: what was handed to net/http, and what the
    answer turned into. *)
Definition SentInv (s : State) : Prop :=
  match sent s with
  | None =>
      resp s = None /\ (pc s = PBind \/ pc s = PRoundTrip \/ pc s = PPanicked)
  | Some (cl, r) =>
      cl = client c /\ heap s !! req s = Some r /\
      match net_http_Do env cl r with
      | (rp, Some e) =>
          pc s = PReturned /\ result s = Some (None, None, Some e) /\
          path s = None
      | (rp, None) =>
          resp s = rp /\ pc s <> PBind /\ pc s <> PRoundTrip /\
          (pc s = PReturned -> path s <> None)
      end
  end.

(** The request that reaches the transport: the caller's, or its copy
    carrying the context. *)
Definition bind_ctx (r : Request) : Request :=
  match ctx with
  | Some cx => with_ctx r cx
  | None => r
  end.

(** The round trip was made and reported no error. *)
Definition round_trip_ok (s : State) : Prop :=
  match sent s with
  | Some (cl, r) => snd (net_http_Do env cl r) = None
  | None => False
  end.

End Invariants.

(** ** Progress of [Do] *)

(** How many steps the calling goroutine can still take, at most, with room
    for the two steps of the reader it spawns. *)
Definition main_rank (l : MainPc) : nat :=
  match l with
  | PBind => 11
  | PRoundTrip => 10
  | PDefer => 9
  | PSpawn => 8
  | PSelect => 5
  | PJoin => 4
  | PClose => 3
  | PReturn => 2
  | PDeferred => 1
  | PReturned | PPanicked => 0
  end.

Definition reader_rank (l : ReaderPc) : nat :=
  match l with
  | RRead => 2
  | RSignal => 1
  | RIdle | RExit => 0
  end.

(** A bound on the steps that are left, the one cancellation included. *)
Definition steps_left (s : State) : nat :=
  main_rank (pc s) + reader_rank (reader s) +
  match ctx_err s with None => 1 | Some _ => 0 end.

(** [Do] is over for its caller: it has returned or panicked. *)
Definition terminal (s : State) : bool :=
  match pc s with
  | PReturned | PPanicked => true
  | _ => false
  end.

(** The actions of a schedule that were enabled when their turn came. *)
Fixpoint effective_steps (env : Env) (c : httpClient) (ctx : option Context)
    (sched : list Act) (s : State) : nat :=
  match sched with
  | [] => 0
  | a :: rest =>
      match step env c ctx a s with
      | Some s' => S (effective_steps env c ctx rest s')
      | None => effective_steps env c ctx rest s
      end
  end.

(** [n] rounds in which each goroutine gets one turn. *)
Fixpoint fair_rounds (n : nat) : list Act :=
  match n with
  | O => []
  | S k => AMain false :: AReader :: fair_rounds k
  end.

(** Where the bytes of a finished read came from: [ReadAll] on the response
    body, after [n] calls of [Close] and with the context's error [ce]. *)
Definition ReadInv (ctx : option Context) (s : State) : Prop :=
  match read_out s with
  | Some out =>
      exists r n ce,
        resp s = Some r /\ out = rc_ReadAll (Body r) n ce /\
        (is_Some ctx -> n = 0%nat) /\ (ce = None \/ ce = ctx_err s)
  | None => True
  end.

(** No panic is under way and none has happened. *)
Definition NoPanic (s : State) : Prop :=
  pc s <> PPanicked /\ panicking s = false.

(** ** The invariants are invariants *)

Ltac open_state s :=
  destruct s as [pc0 rd0 hp0 rq0 rs0 bd0 er0 dn0 df0 pn0 ce0 cl0 pt0 ro0 sn0 rt0].

Ltac unfold_all :=
  cbv beta iota zeta delta
    [untouched armed joined cancelled reading after_select
     cancel_err unwind take_cancel take_done ctx_ready
     set_pc set_reader set_heap set_req set_resp set_body
     set_err set_done set_deferred set_panicking set_ctx_err set_closes
     set_path set_read_out set_sent set_result
     pc reader heap req resp body err done deferred panicking ctx_err
     closes path read_out sent result] in *.

Ltac tidy :=
  match goal with
  | H : _ /\ _ |- _ => destruct H
  | H : is_Some _ |- _ => destruct H
  | H : exists _, _ |- _ => destruct H
  | H : _ \/ _ |- _ => destruct H
  | H : False |- _ => destruct H
  | H : Some _ = None |- _ => discriminate H
  | H : None = Some _ |- _ => discriminate H
  | H : true = false |- _ => discriminate H
  | H : false = true |- _ => discriminate H
  | H : ?x <> ?x |- _ => destruct (H eq_refl)
  | H : _ && _ = true |- _ => apply andb_prop in H
  | H : Some _ = Some _ |- _ => injection H as H
  | H : (_, _) = (_, _) |- _ => injection H as H
  | H : context [match ?x with _ => _ end] |- _ =>
      lazymatch type of x with State => fail | _ => destruct x eqn:? end
  | |- context [match ?x with _ => _ end] =>
      lazymatch type of x with State => fail | _ => destruct x eqn:? end
  end.

Ltac crush :=
  simpl in *; unfold_all; simpl in *;
  repeat (tidy; subst; simpl in *; unfold_all; simpl in *);
  repeat split; eauto; try congruence.

Lemma run_cons env c ctx a rest s :
  run env c ctx (a :: rest) s
  = run env c ctx rest (default s (step env c ctx a s)).
Proof. reflexivity. Qed.

(** Takes the next action of a schedule on a state written out in full. *)
Ltac step_run :=
  rewrite run_cons;
  cbv beta iota zeta delta [step main_step reader_step cancel_step
                            from_option id];
  unfold_all.

Section Preservation.

Variable env : Env.
Variable c : httpClient.
Variable ctx : option Context.
Variable h : list Request.
Variable p : nat.

Lemma Inv_init : Inv ctx (init h p).
Proof. repeat split; reflexivity || eauto. Qed.

Lemma Inv_cancel e s s' :
  Inv ctx s -> cancel_step ctx e s = Some s' -> Inv ctx s'.
Proof.
  open_state s. unfold cancel_step, Inv. simpl.
  destruct ctx as [cx|]; [|discriminate].
  destruct (ctx_can_cancel cx); [|discriminate].
  destruct ce0; [discriminate|].
  intros [_ HI] [= <-]. simpl. split; [discriminate|].
  destruct pc0; crush.
Qed.

Lemma Inv_reader s s' :
  Inv ctx s -> reader_step s = Some s' -> Inv ctx s'.
Proof.
  open_state s. unfold reader_step, Inv. simpl.
  intros [Hc HI] Hs. destruct rd0; try discriminate.
  - destruct rs0 as [r|]; [|discriminate].
    destruct (rc_ReadAll (Body r) cl0 ce0) as [b e] eqn:Hr.
    injection Hs as <-. simpl. split; [exact Hc|].
    destruct pc0; crush.
  - injection Hs as <-. simpl. split; [exact Hc|].
    destruct pc0; crush.
Qed.

Lemma Inv_main b s s' :
  Inv ctx s -> main_step env c ctx b s = Some s' -> Inv ctx s'.
Proof.
  open_state s. unfold main_step, Inv. simpl.
  intros [Hc HI] Hs.
  destruct pc0; crush.
Qed.

Lemma Inv_step a s s' :
  Inv ctx s -> step env c ctx a s = Some s' -> Inv ctx s'.
Proof.
  destruct a; simpl; eauto using Inv_main, Inv_reader, Inv_cancel.
Qed.

Lemma HeapInv_init : HeapInv ctx h p (init h p).
Proof. split; reflexivity. Qed.

Lemma HeapInv_step a s s' :
  HeapInv ctx h p s -> step env c ctx a s = Some s' -> HeapInv ctx h p s'.
Proof.
  open_state s. unfold HeapInv. destruct a as [b| |e]; simpl.
  - unfold main_step. simpl. intros HI Hs. destruct pc0; crush.
  - unfold reader_step. simpl. intros HI Hs. destruct rd0; crush.
  - unfold cancel_step. simpl. intros HI Hs. crush.
Qed.

Lemma SentInv_init : SentInv env c (init h p).
Proof. split; [reflexivity | left; reflexivity]. Qed.

Lemma SentInv_step a s s' :
  Inv ctx s -> SentInv env c s ->
  step env c ctx a s = Some s' -> SentInv env c s'.
Proof.
  open_state s. unfold SentInv, Inv. destruct a as [b| |e]; simpl.
  - unfold main_step. simpl. intros [_ HI] HS Hs.
    destruct pc0; crush; try tauto.
  - unfold reader_step. simpl. intros _ HS Hs. destruct rd0; crush.
  - unfold cancel_step. simpl. intros _ HS Hs. crush.
Qed.

(** Every reachable state satisfies the three invariants. *)
Lemma reachable_Inv s :
  reachable env c ctx h p s ->
  Inv ctx s /\ HeapInv ctx h p s /\ SentInv env c s.
Proof.
  induction 1 as [|a s s' _ (HI & HH & HS) Hstep].
  - split; [apply Inv_init | split; [apply HeapInv_init | apply SentInv_init]].
  - split; [exact (Inv_step _ _ _ HI Hstep) | split].
    + exact (HeapInv_step _ _ _ HH Hstep).
    + exact (SentInv_step _ _ _ HI HS Hstep).
Qed.

(** Running a schedule stays within the reachable states. *)
Lemma run_reachable sched s :
  reachable env c ctx h p s -> reachable env c ctx h p (run env c ctx sched s).
Proof.
  revert s. induction sched as [|a rest IH]; intros s Hs; simpl; [exact Hs|].
  apply IH. destruct (step env c ctx a s) as [s'|] eqn:Hstep; simpl.
  - exact (reach_step _ _ _ _ _ _ _ _ Hs Hstep).
  - exact Hs.
Qed.

Lemma Do_reachable sched : reachable env c ctx h p (Do env c ctx h p sched).
Proof. apply run_reachable, reach_init. Qed.

End Preservation.

(** ** NewClient and URL *)

(** X10: [NewClient] hands back either a client and the nil error, or the
    nil client and a non-nil error; never both, never neither. *)
Lemma NewClient_client_xor_error ctx cfg tr hc e :
  NewClient ctx cfg tr = (hc, e) ->
  (hc = None /\ is_Some e) \/ (is_Some hc /\ e = None).
Proof.
  unfold NewClient.
  destruct (Authorize cfg ctx tr) as [t [ea|]];
    destruct (Endpoints cfg) as [f [ee|]]; intros [= <- <-]; eauto.
Qed.

(** What a client built by [NewClient] holds. *)
Lemma NewClient_fields ctx cfg tr hc e :
  NewClient ctx cfg tr = (Some hc, e) ->
  e = None /\
  Timeout (client hc) = 10 * Second /\
  Transport (client hc) = fst (Authorize cfg ctx tr) /\
  endpoints hc = fst (Endpoints cfg) /\
  snd (Authorize cfg ctx tr) = None /\ snd (Endpoints cfg) = None.
Proof.
  unfold NewClient.
  destruct (Authorize cfg ctx tr) as [t [ea|]];
    destruct (Endpoints cfg) as [f [ee|]]; intros [= <- <-]; simpl;
    repeat split; reflexivity.
Qed.

(** The two ways the configuration can fail, and what [NewClient] answers. *)
Lemma NewClient_error_cases ctx cfg tr e :
  snd (Authorize cfg ctx tr) = Some e \/
  (snd (Authorize cfg ctx tr) = None /\ snd (Endpoints cfg) = Some e) ->
  NewClient ctx cfg tr = (None, Some e).
Proof.
  unfold NewClient.
  destruct (Authorize cfg ctx tr) as [t ea], (Endpoints cfg) as [f ee].
  simpl. intros [-> | [-> ->]]; reflexivity.
Qed.

(** C6: whenever a call that [NewClient] makes on the configuration,
    [Authorize] or [Endpoints], returns an error, [NewClient] returns the
    nil client together with exactly that error value. *)
Theorem NewClient_config_error ctx cfg tr op e :
  In (op, Some e) (NewClient_calls ctx cfg tr) ->
  NewClient ctx cfg tr = (None, Some e).
Proof.
  intros Hin. apply NewClient_error_cases. revert Hin.
  unfold NewClient_calls.
  destruct (Authorize cfg ctx tr) as [t [ea|]]; simpl.
  - intros [[= _ ->] | []]. left. reflexivity.
  - destruct (Endpoints cfg) as [f ee]. simpl.
    intros [[=] | [[= _ ->] | []]]. right. split; reflexivity.
Qed.

Lemma NewClient_config_error_witness :
  NewClient None Sample.cfg_denied None = (None, Some Sample.denied) /\
  NewClient None Sample.cfg_no_endpoints None
    = (None, Some Sample.no_endpoints).
Proof.
  split.
  - apply (NewClient_config_error None Sample.cfg_denied None OpAuthorize).
    simpl. left. reflexivity.
  - apply (NewClient_config_error None Sample.cfg_no_endpoints None
             OpEndpoints).
    simpl. right. left. reflexivity.
Defined.

(** C9: a client built by [NewClient] holds the resolver that [Endpoints]
    returned, untouched, and [URL] answers with that resolver applied to the
    endpoint name. *)
Theorem URL_applies_resolver ctx cfg tr hc e :
  NewClient ctx cfg tr = (Some hc, e) ->
  endpoints hc = fst (Endpoints cfg) /\
  (forall ep, httpClient_URL hc ep = call_resolver (fst (Endpoints cfg)) ep) /\
  (forall f ep, fst (Endpoints cfg) = Some f ->
                httpClient_URL hc ep = Returns (f ep)).
Proof.
  intros H. destruct (NewClient_fields _ _ _ _ _ H) as (_ & _ & _ & He & _).
  unfold httpClient_URL. rewrite He. split; [reflexivity|].
  split; [reflexivity|]. intros f ep ->. reflexivity.
Qed.

Lemma URL_applies_resolver_witness :
  httpClient_URL Sample.a_client "foo"
  = Returns (Some {| url_string := "http://example.test/foo" |}).
Proof.
  exact (proj2 (proj2 (URL_applies_resolver None Sample.cfg_plain None
                         Sample.a_client None eq_refl))
           Sample.example_url "foo" eq_refl).
Defined.

(** ** Do *)

Section DoFacts.

Variable env : Env.
Variable c : httpClient.
Variable ctx : option Context.
Variable h : list Request.
Variable p : nat.

Lemma Do_invariants sched :
  let s := Do env c ctx h p sched in
  Inv ctx s /\ HeapInv ctx h p s /\ SentInv env c s.
Proof. apply reachable_Inv, Do_reachable. Qed.

(** What reaches net/http is the client's own [http.Client] and the caller's
    request, bound to the context when there is one. *)
Lemma sent_request s cl r' :
  reachable env c ctx h p s ->
  sent s = Some (cl, r') ->
  cl = client c /\ exists r, h !! p = Some r /\ r' = bind_ctx ctx r.
Proof.
  intros Hr Hsent.
  destruct (reachable_Inv _ _ _ _ _ _ Hr) as (_ & HH & HS).
  unfold SentInv in HS. rewrite Hsent in HS.
  destruct HS as (-> & Hlook & Hpc). split; [reflexivity|].
  assert (Hnb : pc s <> PBind).
  { destruct (net_http_Do env (client c) r') as [rp [e|]].
    - destruct Hpc as (-> & _). discriminate.
    - tauto. }
  unfold HeapInv in HH. unfold bind_ctx.
  destruct (pc s); try (destruct (Hnb eq_refl));
    destruct ctx as [cx|]; try destruct (h !! p) as [r|] eqn:Hp;
    destruct HH as [Hh Hq]; rewrite Hh, Hq in Hlook.
  all: try (rewrite Hp in Hlook; discriminate Hlook).
  all: try (rewrite lookup_app_r, Nat.sub_diag in Hlook by lia;
            injection Hlook as <-; eauto).
  all: eexists; split; [reflexivity | congruence].
Qed.

(** The control invariant read off at a state where [Do] has returned. *)
Lemma returned_state sched :
  pc (Do env c ctx h p sched) = PReturned ->
  let s := Do env c ctx h p sched in
  match path s with
  | None =>
      reader s = RIdle /\ closes s = 0%nat /\ read_out s = None /\
      done s = false /\ deferred s = false /\
      exists e, result s = Some (None, None, Some e)
  | Some pth =>
      reader s = RExit /\ done s = true /\ is_Some ctx /\
      result s = Some (resp s, body s, err s) /\
      exists r, resp s = Some r /\
      match pth with
      | PathDone => closes s = 1%nat /\ read_out s = Some (body s, err s)
      | PathCancel =>
          closes s = 2%nat /\
          (exists e, read_out s = Some (body s, e)) /\
          exists ce, ctx_err s = Some ce /\
            err s = match rc_Close (Body r) 0 with
                    | Some e => Some e
                    | None => Some ce
                    end
      end
  end.
Proof.
  intros Hpc. destruct (Do_invariants sched) as ((_ & HI) & _).
  cbv zeta in *. set (s := Do env c ctx h p sched) in *. clearbody s.
  rewrite Hpc in HI. revert HI. clear Hpc. open_state s.
  destruct pt0 as [[]|]; intros HI; crush.
  all: eexists; split; [reflexivity|]; split; [reflexivity|];
    split; [eauto|]; eexists; split; [reflexivity|];
    rewrite Heqg; reflexivity.
Qed.

(** C7: when [Do] has returned, the reading goroutine is not running: it
    was never spawned (the round trip failed) or it has finished and closed
    [done]; on either select path it has finished. *)
Theorem Do_joins_reader sched :
  pc (Do env c ctx h p sched) = PReturned ->
  reader (Do env c ctx h p sched) <> RRead /\
  reader (Do env c ctx h p sched) <> RSignal /\
  (is_Some (path (Do env c ctx h p sched)) ->
   reader (Do env c ctx h p sched) = RExit /\
   done (Do env c ctx h p sched) = true).
Proof.
  intros Hpc. pose proof (returned_state sched Hpc) as H. cbv zeta in H.
  destruct (path (Do env c ctx h p sched)) as [pth|].
  - destruct H as (-> & -> & _).
    split; [discriminate | split; [discriminate | intros _; split; reflexivity]].
  - destruct H as (-> & _).
    split; [discriminate | split; [discriminate | intros [? [=]]]].
Qed.

(** Once [Do] has returned, the round trip had succeeded exactly when a
    select case was taken. *)
Lemma returned_round_trip sched :
  pc (Do env c ctx h p sched) = PReturned ->
  (round_trip_ok env (Do env c ctx h p sched) <->
   is_Some (path (Do env c ctx h p sched))).
Proof.
  intros Hpc. destruct (Do_invariants sched) as (_ & _ & HS).
  cbv zeta in *. set (s := Do env c ctx h p sched) in *. clearbody s.
  unfold SentInv in HS. unfold round_trip_ok.
  destruct (sent s) as [[cl r]|].
  - destruct (net_http_Do env cl r) as [rp [e|]]; simpl.
    + destruct HS as (_ & _ & _ & _ & ->). split; [discriminate|].
      intros [? [=]].
    + destruct HS as (_ & _ & _ & _ & _ & Hp). specialize (Hp Hpc).
      split; [|reflexivity]. intros _.
      destruct (path s); [eauto | destruct (Hp eq_refl)].
  - destruct HS as (_ & [H | [H | H]]); rewrite Hpc in H; discriminate.
Qed.

(** C1, amended: when the round trip succeeded and [Do] has returned,
    [Close] has been called on the response body once on the
    normal-completion path (the deferred call) and twice on the cancellation
    path (the explicit call, then the deferred one). *)
Theorem Do_close_count sched :
  pc (Do env c ctx h p sched) = PReturned ->
  round_trip_ok env (Do env c ctx h p sched) ->
  match path (Do env c ctx h p sched) with
  | Some PathDone => closes (Do env c ctx h p sched) = 1%nat
  | Some PathCancel => closes (Do env c ctx h p sched) = 2%nat
  | None => False
  end.
Proof.
  intros Hpc Hok. apply (returned_round_trip sched Hpc) in Hok.
  pose proof (returned_state sched Hpc) as H. cbv zeta in H.
  destruct (path (Do env c ctx h p sched)) as [pth|].
  - destruct H as (_ & _ & _ & _ & r & _ & H).
    destruct pth; destruct H as (H & _); exact H.
  - destruct Hok as [? [=]].
Qed.

(** C3, amended: on the cancellation path [Do] reports failure, a non-nil
    error, and returns with it the response and the very bytes the internal
    read produced. *)
Theorem Do_cancel_returns_read_bytes sched :
  pc (Do env c ctx h p sched) = PReturned ->
  path (Do env c ctx h p sched) = Some PathCancel ->
  exists r b e re,
    result (Do env c ctx h p sched) = Some (Some r, b, Some e) /\
    read_out (Do env c ctx h p sched) = Some (b, re).
Proof.
  intros Hpc Hpath. pose proof (returned_state sched Hpc) as H.
  cbv zeta in H. rewrite Hpath in H.
  destruct H as (_ & _ & _ & Hres & r & Hr & _ & [re Hre] & ce & _ & He).
  rewrite Hr, He in Hres.
  destruct (rc_Close (Body r) 0) as [e|]; eauto 6.
Qed.

(** C4: on the cancellation path the explicit [Close] is the first one and
    is made once the reading goroutine has finished; the error [Do] returns
    is that [Close]'s error when it is non-nil and the context's [Err()]
    otherwise. *)
Theorem Do_cancel_error sched :
  (pc (Do env c ctx h p sched) = PClose ->
   reader (Do env c ctx h p sched) = RExit /\
   done (Do env c ctx h p sched) = true /\
   closes (Do env c ctx h p sched) = 0%nat) /\
  (pc (Do env c ctx h p sched) = PReturned ->
   path (Do env c ctx h p sched) = Some PathCancel ->
   exists r b ce,
     ctx_err (Do env c ctx h p sched) = Some ce /\
     result (Do env c ctx h p sched)
     = Some (Some r, b, match rc_Close (Body r) 0 with
                        | Some e => Some e
                        | None => Some ce
                        end)).
Proof.
  split.
  - intros Hpc. destruct (Do_invariants sched) as ((_ & HI) & _).
    cbv zeta in *. rewrite Hpc in HI.
    destruct HI as (_ & (Hr & Hd) & Hc & _). auto.
  - intros Hpc Hpath. pose proof (returned_state sched Hpc) as H.
    cbv zeta in H. rewrite Hpath in H.
    destruct H as (_ & _ & _ & Hres & r & Hr & _ & _ & ce & Hce & He).
    rewrite Hr, He in Hres. eauto.
Qed.

(** C5: when the round trip fails, no read is started and nothing is closed,
    whatever the schedule; [Do] returns (nil, nil, the transport's error),
    and it does so in the two steps of the calling goroutine that bind the
    context and make the round trip. *)
Theorem Do_transport_failure sched r rp e :
  h !! p = Some r ->
  net_http_Do env (client c) (bind_ctx ctx r) = (rp, Some e) ->
  reader (Do env c ctx h p sched) = RIdle /\
  read_out (Do env c ctx h p sched) = None /\
  closes (Do env c ctx h p sched) = 0%nat /\
  (pc (Do env c ctx h p sched) = PReturned ->
   result (Do env c ctx h p sched) = Some (None, None, Some e)) /\
  pc (Do env c ctx h p [AMain false; AMain false]) = PReturned /\
  result (Do env c ctx h p [AMain false; AMain false])
  = Some (None, None, Some e).
Proof.
  intros Hp Hnet.
  assert (Hany : forall sch,
    reader (Do env c ctx h p sch) = RIdle /\
    read_out (Do env c ctx h p sch) = None /\
    closes (Do env c ctx h p sch) = 0%nat /\
    (pc (Do env c ctx h p sch) = PReturned ->
     result (Do env c ctx h p sch) = Some (None, None, Some e))).
  { intros sch. destruct (Do_invariants sch) as ((_ & HI) & _ & HS).
    pose proof (fun cl r' =>
                  sent_request _ cl r' (Do_reachable env c ctx h p sch))
      as Hsent.
    cbv zeta in *. set (s := Do env c ctx h p sch) in *. clearbody s.
    unfold SentInv in HS. destruct (sent s) as [[cl r']|].
    - destruct (Hsent cl r' eq_refl) as (-> & r0 & Hr0 & ->).
      assert (r0 = r) as -> by congruence.
      rewrite Hnet in HS. destruct HS as (_ & _ & Hpc & Hres & Hpath).
      rewrite Hpc, Hpath in HI.
      destruct HI as (_ & (Hrd & Hcl & _ & _ & _ & Hro & _) & _).
      auto.
    - destruct HS as (Hresp & Hpc).
      destruct Hpc as [Hpc | [Hpc | Hpc]]; rewrite Hpc in HI |- *.
      + destruct HI as ((Hrd & Hcl & _ & _ & _ & Hro & _) & _).
        repeat split; auto; discriminate.
      + destruct HI as ((Hrd & Hcl & _ & _ & _ & Hro & _) & _).
        repeat split; auto; discriminate.
      + destruct HI as (_ & _ & _ & HI).
        destruct (deferred s).
        * destruct HI as (_ & (_ & [x Hx]) & _). congruence.
        * destruct HI as (Hrd & Hcl & Hro).
          repeat split; auto; discriminate. }
  destruct (Hany sched) as (H1 & H2 & H3 & H4).
  repeat (split; [assumption|]).
  assert (Hpc : pc (Do env c ctx h p [AMain false; AMain false]) = PReturned).
  { unfold Do, run, step, main_step, init, bind_ctx in *. simpl.
    destruct ctx as [cx|]; simpl; rewrite Hp; simpl.
    - rewrite lookup_app_r, Nat.sub_diag by lia. simpl.
      rewrite Hnet. reflexivity.
    - rewrite Hnet. reflexivity. }
  split; [exact Hpc|]. apply (Hany [AMain false; AMain false]), Hpc.
Qed.

(** C10: every request of the caller's heap is where it was and as it was,
    in every state of [Do]; and once a non-nil context has been bound, the
    local variable [req] points to a request allocated past the caller's
    heap, holding the caller's request with the context set. *)
Theorem Do_leaves_request sched :
  (forall q r, h !! q = Some r ->
     heap (Do env c ctx h p sched) !! q = Some r) /\
  (forall cx r, ctx = Some cx -> h !! p = Some r ->
     pc (Do env c ctx h p sched) <> PBind ->
     req (Do env c ctx h p sched) = length h /\
     heap (Do env c ctx h p sched) = h ++ [with_ctx r cx]) /\
  (ctx = None ->
     req (Do env c ctx h p sched) = p /\
     heap (Do env c ctx h p sched) = h).
Proof.
  destruct (Do_invariants sched) as (_ & HH & _).
  cbv zeta in *. set (s := Do env c ctx h p sched) in *. clearbody s.
  unfold HeapInv in HH.
  assert (Hpre : heap s = h \/ exists x, heap s = h ++ [x]).
  { destruct (pc s), ctx as [cx|]; try destruct (h !! p);
      destruct HH as [-> _]; eauto. }
  split; [|split].
  - intros q r Hq. destruct Hpre as [-> | [x ->]]; [exact Hq|].
    apply lookup_app_l_Some, Hq.
  - intros cx r -> Hp Hpc. rewrite Hp in HH.
    destruct (pc s); try (destruct (Hpc eq_refl));
      destruct HH as [-> ->]; auto.
  - intros ->. destruct (pc s); destruct HH as [-> ->]; auto.
Qed.

End DoFacts.

(** [Do] does return: whenever the round trip succeeds, the schedule in
    which the read finishes first takes [Do] to its return with the
    response, the bytes read and the read's error. *)
Lemma Do_returns_body env c cx h p r rp :
  h !! p = Some r ->
  net_http_Do env (client c) (with_ctx r cx) = (Some rp, None) ->
  pc (Do env c (Some cx) h p Sample.sched_done) = PReturned /\
  path (Do env c (Some cx) h p Sample.sched_done) = Some PathDone /\
  result (Do env c (Some cx) h p Sample.sched_done)
  = Some (Some rp, fst (rc_ReadAll (Body rp) 0 None),
          snd (rc_ReadAll (Body rp) 0 None)).
Proof.
  intros Hp Hnet. unfold Do, init, Sample.sched_done.
  step_run. rewrite Hp. unfold_all.
  step_run. rewrite (list_lookup_middle h [] _ (length h) eq_refl).
  unfold_all. rewrite Hnet. unfold_all.
  do 2 step_run.
  step_run. destruct (rc_ReadAll (Body rp) 0 None) as [b e]. unfold_all.
  step_run. step_run.
  destruct (ctx_can_cancel cx); cbv beta iota delta [andb]; unfold_all.
  all: do 2 step_run; repeat split; reflexivity.
Qed.

(** And so it does when the context is cancelled while the read is still
    running: both calls of [Close] are made and [Do] returns. *)
Lemma Do_returns_cancelled env c cx h p r rp :
  ctx_can_cancel cx = true ->
  h !! p = Some r ->
  net_http_Do env (client c) (with_ctx r cx) = (Some rp, None) ->
  pc (Do env c (Some cx) h p Sample.sched_cancel) = PReturned /\
  path (Do env c (Some cx) h p Sample.sched_cancel) = Some PathCancel /\
  closes (Do env c (Some cx) h p Sample.sched_cancel) = 2%nat.
Proof.
  intros Hcan Hp Hnet. unfold Do, init, Sample.sched_cancel.
  step_run. rewrite Hp. unfold_all.
  step_run. rewrite (list_lookup_middle h [] _ (length h) eq_refl).
  unfold_all. rewrite Hnet. unfold_all.
  do 2 step_run.
  step_run. rewrite Hcan. unfold_all.
  step_run. rewrite Hcan. cbv beta iota delta [andb]. unfold_all.
  step_run.
  destruct (rc_ReadAll (Body rp) 0 (Some Sample.Canceled)) as [b e].
  unfold_all.
  do 5 step_run. repeat split; reflexivity.
Qed.

(** Whenever [Do] has returned, the round trip was made. *)
Lemma returned_sent env c ctx h p sched :
  pc (Do env c ctx h p sched) = PReturned ->
  exists r, h !! p = Some r /\
    sent (Do env c ctx h p sched) = Some (client c, bind_ctx ctx r).
Proof.
  intros Hpc. destruct (Do_invariants env c ctx h p sched) as (_ & _ & HS).
  pose proof (fun cl r' =>
                sent_request env c ctx h p _ cl r'
                  (Do_reachable env c ctx h p sched)) as Hsent.
  cbv zeta in *. unfold SentInv in HS.
  destruct (sent (Do env c ctx h p sched)) as [[cl r']|].
  - destruct (Hsent cl r' eq_refl) as (-> & r & Hr & ->). eauto.
  - destruct HS as (_ & [H | [H | H]]); rewrite Hpc in H; discriminate.
Qed.

(** C2, as the code has it: with a nil context and a round trip that
    succeeds, [Do] never returns, whatever the schedule; the calling
    goroutine alone runs into the panic of [ctx.Done()] at the select, and
    leaves through the deferred [Close]. *)
Theorem Do_nil_ctx_panics env c h p sched r rp :
  h !! p = Some r ->
  net_http_Do env (client c) r = (Some rp, None) ->
  pc (Do env c None h p sched) <> PReturned /\
  pc (Do env c None h p (replicate 6 (AMain false))) = PPanicked /\
  result (Do env c None h p (replicate 6 (AMain false))) = None.
Proof.
  intros Hp Hnet. split.
  - intros Hpc.
    destruct (returned_sent _ _ _ _ _ _ Hpc) as (r0 & Hr0 & Hsent).
    assert (r0 = r) as -> by congruence. simpl in Hsent.
    assert (Hok : round_trip_ok env (Do env c None h p sched)).
    { unfold round_trip_ok. rewrite Hsent, Hnet. reflexivity. }
    apply (returned_round_trip _ _ _ _ _ _ Hpc) in Hok.
    pose proof (returned_state _ _ _ _ _ _ Hpc) as H. cbv zeta in H.
    destruct (path (Do env c None h p sched)) as [pth|].
    + destruct H as (_ & _ & [? [=]] & _).
    + destruct Hok as [? [=]].
  - unfold Do, init. cbv [replicate].
    step_run. step_run. rewrite Hp. unfold_all. rewrite Hnet. unfold_all.
    do 4 step_run. split; reflexivity.
Qed.

Lemma Do_nil_ctx_panics_witness :
  pc (Do Sample.env_ok Sample.a_client None [Sample.get_foo] 0
        Sample.sched_done) <> PReturned /\
  pc (Do Sample.env_ok Sample.a_client None [Sample.get_foo] 0
        (replicate 6 (AMain false))) = PPanicked /\
  result (Do Sample.env_ok Sample.a_client None [Sample.get_foo] 0
            (replicate 6 (AMain false))) = None.
Proof.
  apply (Do_nil_ctx_panics Sample.env_ok Sample.a_client [Sample.get_foo]
           0%nat Sample.sched_done Sample.get_foo Sample.resp_ok);
    reflexivity.
Defined.

(** C8: every client built by [NewClient] carries a [Timeout] of ten
    seconds, 10^10 nanoseconds; [Do] hands that very [http.Client] to
    net/http, and with it the request bound to the caller's context when
    there is one. *)
Theorem NewClient_timeout ctx cfg tr hc e :
  NewClient ctx cfg tr = (Some hc, e) ->
  Timeout (client hc) = 10000000000 /\
  forall env ctx' h p sched cl r,
    sent (Do env hc ctx' h p sched) = Some (cl, r) ->
    Timeout cl = 10000000000 /\
    forall cx, ctx' = Some cx -> req_ctx r = Some cx.
Proof.
  intros H. destruct (NewClient_fields _ _ _ _ _ H) as (_ & HT & _).
  split; [rewrite HT; reflexivity|].
  intros env ctx' h p sched cl r Hsent.
  destruct (sent_request env hc ctx' h p _ cl r
              (Do_reachable env hc ctx' h p sched) Hsent)
    as (-> & r0 & _ & ->).
  split; [rewrite HT; reflexivity|]. intros cx ->. reflexivity.
Qed.

Lemma NewClient_timeout_witness :
  Timeout (client Sample.a_client) = 10000000000 /\
  forall env ctx' h p sched cl r,
    sent (Do env Sample.a_client ctx' h p sched) = Some (cl, r) ->
    Timeout cl = 10000000000 /\
    forall cx, ctx' = Some cx -> req_ctx r = Some cx.
Proof.
  apply (NewClient_timeout None Sample.cfg_plain None Sample.a_client None).
  reflexivity.
Defined.

(** C1 as stated fails: on the cancellation path [Close] has been called
    twice by the time [Do] returns. *)
Lemma Do_close_once_fails :
  ~ (forall env c ctx h p sched,
       pc (Do env c ctx h p sched) = PReturned ->
       round_trip_ok env (Do env c ctx h p sched) ->
       closes (Do env c ctx h p sched) = 1%nat).
Proof.
  intros H.
  specialize (H Sample.env_ok Sample.a_client (Some Sample.a_ctx)
                [Sample.get_foo] 0%nat Sample.sched_cancel
                eq_refl eq_refl).
  discriminate H.
Qed.

Lemma Do_close_count_witness :
  closes (Do Sample.env_ok Sample.a_client (Some Sample.a_ctx)
            [Sample.get_foo] 0 Sample.sched_done) = 1%nat /\
  closes (Do Sample.env_ok Sample.a_client (Some Sample.a_ctx)
            [Sample.get_foo] 0 Sample.sched_cancel) = 2%nat.
Proof.
  split.
  - exact (Do_close_count Sample.env_ok Sample.a_client (Some Sample.a_ctx)
             [Sample.get_foo] 0%nat Sample.sched_done eq_refl eq_refl).
  - exact (Do_close_count Sample.env_ok Sample.a_client (Some Sample.a_ctx)
             [Sample.get_foo] 0%nat Sample.sched_cancel eq_refl eq_refl).
Defined.

(** C3 as stated fails: on the cancellation path the caller is handed the
    bytes that were read, not the nil slice. *)
Lemma Do_cancel_discards_body_fails :
  ~ (forall env c ctx h p sched,
       pc (Do env c ctx h p sched) = PReturned ->
       path (Do env c ctx h p sched) = Some PathCancel ->
       exists rp e, result (Do env c ctx h p sched) = Some (rp, None, Some e)).
Proof.
  intros H.
  destruct (H Sample.env_ok Sample.a_client (Some Sample.a_ctx)
              [Sample.get_foo] 0%nat Sample.sched_cancel
              eq_refl eq_refl) as (rp & e & Hres).
  discriminate Hres.
Qed.

Lemma Do_cancel_returns_read_bytes_witness :
  exists r b e re,
    result (Do Sample.env_ok Sample.a_client (Some Sample.a_ctx)
              [Sample.get_foo] 0 Sample.sched_cancel)
    = Some (Some r, b, Some e) /\
    read_out (Do Sample.env_ok Sample.a_client (Some Sample.a_ctx)
                [Sample.get_foo] 0 Sample.sched_cancel) = Some (b, re).
Proof.
  exact (Do_cancel_returns_read_bytes Sample.env_ok Sample.a_client
           (Some Sample.a_ctx) [Sample.get_foo] 0%nat Sample.sched_cancel
           eq_refl eq_refl).
Defined.

Lemma Do_joins_reader_witness :
  reader (Do Sample.env_ok Sample.a_client (Some Sample.a_ctx)
            [Sample.get_foo] 0 Sample.sched_cancel) = RExit /\
  reader (Do Sample.env_ok Sample.a_client (Some Sample.a_ctx)
            [Sample.get_foo] 0 Sample.sched_done) = RExit.
Proof.
  split.
  - apply (Do_joins_reader Sample.env_ok Sample.a_client (Some Sample.a_ctx)
             [Sample.get_foo] 0%nat Sample.sched_cancel);
      [reflexivity | eexists; reflexivity].
  - apply (Do_joins_reader Sample.env_ok Sample.a_client (Some Sample.a_ctx)
             [Sample.get_foo] 0%nat Sample.sched_done);
      [reflexivity | eexists; reflexivity].
Defined.

Lemma Do_cancel_error_witness :
  (reader (Do Sample.env_bad_close Sample.a_client (Some Sample.a_ctx)
             [Sample.get_foo] 0 (take 9 Sample.sched_cancel)) = RExit /\
   done (Do Sample.env_bad_close Sample.a_client (Some Sample.a_ctx)
           [Sample.get_foo] 0 (take 9 Sample.sched_cancel)) = true /\
   closes (Do Sample.env_bad_close Sample.a_client (Some Sample.a_ctx)
             [Sample.get_foo] 0 (take 9 Sample.sched_cancel)) = 0%nat) /\
  (exists r b ce,
     ctx_err (Do Sample.env_ok Sample.a_client (Some Sample.a_ctx)
                [Sample.get_foo] 0 Sample.sched_cancel) = Some ce /\
     result (Do Sample.env_ok Sample.a_client (Some Sample.a_ctx)
               [Sample.get_foo] 0 Sample.sched_cancel)
     = Some (Some r, b, match rc_Close (Body r) 0 with
                        | Some e => Some e
                        | None => Some ce
                        end)).
Proof.
  split.
  - exact (proj1 (Do_cancel_error Sample.env_bad_close Sample.a_client
                    (Some Sample.a_ctx) [Sample.get_foo] 0%nat
                    (take 9 Sample.sched_cancel)) eq_refl).
  - exact (proj2 (Do_cancel_error Sample.env_ok Sample.a_client
                    (Some Sample.a_ctx) [Sample.get_foo] 0%nat
                    Sample.sched_cancel) eq_refl eq_refl).
Defined.

Lemma Do_transport_failure_witness :
  result (Do Sample.env_refused Sample.a_client (Some Sample.a_ctx)
            [Sample.get_foo] 0 [AMain false; AMain false])
  = Some (None, None, Some Sample.refused).
Proof.
  apply (Do_transport_failure Sample.env_refused Sample.a_client
           (Some Sample.a_ctx) [Sample.get_foo] 0%nat Sample.sched_done
           Sample.get_foo None Sample.refused); reflexivity.
Defined.

Lemma Do_leaves_request_witness :
  heap (Do Sample.env_ok Sample.a_client (Some Sample.a_ctx)
          [Sample.get_foo] 0 Sample.sched_cancel) !! 0%nat
  = Some Sample.get_foo /\
  req (Do Sample.env_ok Sample.a_client (Some Sample.a_ctx)
         [Sample.get_foo] 0 Sample.sched_cancel) = 1%nat.
Proof.
  split.
  - exact (proj1 (Do_leaves_request Sample.env_ok Sample.a_client
                    (Some Sample.a_ctx) [Sample.get_foo] 0%nat
                    Sample.sched_cancel) 0%nat Sample.get_foo eq_refl).
  - exact (proj1 (proj1 (proj2 (Do_leaves_request Sample.env_ok
                    Sample.a_client (Some Sample.a_ctx) [Sample.get_foo]
                    0%nat Sample.sched_cancel))
                    Sample.a_ctx Sample.get_foo eq_refl eq_refl
                    ltac:(discriminate))).
Defined.

(** ** Progress, panics and results of [Do] *)

Section Progress.

Variable env : Env.
Variable c : httpClient.
Variable ctx : option Context.
Variable h : list Request.
Variable p : nat.

(** Every step uses up some of what is left. *)
Lemma step_steps_left a s s' :
  step env c ctx a s = Some s' -> (steps_left s' < steps_left s)%nat.
Proof.
  open_state s. unfold steps_left.
  destruct a as [b| |e]; simpl.
  - unfold main_step. simpl. intros Hs.
    destruct pc0; crush; destruct rd0; simpl; lia.
  - unfold reader_step. simpl. intros Hs.
    destruct rd0; crush; lia.
  - unfold cancel_step. simpl. intros Hs. crush; lia.
Qed.

Lemma effective_steps_bound sched s :
  (effective_steps env c ctx sched s <= steps_left s)%nat.
Proof.
  revert s. induction sched as [|a rest IH]; intros s; simpl; [lia|].
  destruct (step env c ctx a s) as [s'|] eqn:Hs; [|apply IH].
  pose proof (step_steps_left _ _ _ Hs). pose proof (IH s'). lia.
Qed.

(** X6: no schedule makes [Do] take more than twelve steps, the steps of
    both goroutines and the cancellation of the context counted together. *)
Theorem Do_step_bound sched :
  (effective_steps env c ctx sched (init h p) <= 12)%nat.
Proof. apply (effective_steps_bound sched (init h p)). Qed.

(** A state of [Do] that is not terminal lets one of the two goroutines
    take a step. *)
Lemma reachable_not_stuck s :
  reachable env c ctx h p s ->
  terminal s = false ->
  is_Some (main_step env c ctx false s) \/ is_Some (reader_step s).
Proof.
  intros Hr. destruct (reachable_Inv _ _ _ _ _ _ Hr) as ((_ & HI) & _).
  revert HI. clear Hr. open_state s. unfold terminal, main_step, reader_step.
  simpl. intros HI Ht.
  destruct pc0; try discriminate Ht; crush.
  all: try (left; eexists; reflexivity).
  all: try (right; eexists; reflexivity).
Qed.

Lemma run_app l1 l2 s :
  run env c ctx (l1 ++ l2) s = run env c ctx l2 (run env c ctx l1 s).
Proof.
  revert s. induction l1 as [|a l1 IH]; intros s; simpl; [reflexivity|].
  apply IH.
Qed.

Lemma run_steps_left sched s :
  (steps_left (run env c ctx sched s) <= steps_left s)%nat.
Proof.
  revert s. induction sched as [|a rest IH]; intros s; simpl; [lia|].
  destruct (step env c ctx a s) as [s'|] eqn:Hs; simpl; [|apply IH].
  pose proof (step_steps_left _ _ _ Hs). pose proof (IH s'). lia.
Qed.

(** Once [Do] is over for its caller it stays so. *)
Lemma terminal_step a s s' :
  terminal s = true -> step env c ctx a s = Some s' -> terminal s' = true.
Proof.
  open_state s. unfold terminal. destruct a as [b| |e]; simpl.
  - unfold main_step. simpl. destruct pc0; discriminate.
  - unfold reader_step. simpl. intros Ht Hs. destruct rd0; crush.
  - unfold cancel_step. simpl. intros Ht Hs. crush.
Qed.

Lemma terminal_run sched s :
  terminal s = true -> terminal (run env c ctx sched s) = true.
Proof.
  revert s. induction sched as [|a rest IH]; intros s Ht; simpl; [exact Ht|].
  apply IH. destruct (step env c ctx a s) as [s'|] eqn:Hs; simpl.
  - exact (terminal_step _ _ _ Ht Hs).
  - exact Ht.
Qed.

(** A round in which each goroutine gets a turn uses up a step. *)
Lemma round_steps_left s :
  reachable env c ctx h p s ->
  terminal s = false ->
  (steps_left (run env c ctx [AMain false; AReader] s) < steps_left s)%nat.
Proof.
  intros Hr Ht. destruct (reachable_not_stuck s Hr Ht) as [[s1 H1] | [s1 H1]].
  - pose proof (step_steps_left (AMain false) s s1 H1) as Hlt.
    pose proof (run_steps_left [AReader] s1) as Hle.
    simpl in *. rewrite H1. simpl. lia.
  - simpl. destruct (main_step env c ctx false s) as [s2|] eqn:H2; simpl.
    + pose proof (step_steps_left (AMain false) s s2 H2) as Hlt.
      pose proof (run_steps_left [AReader] s2) as Hle. simpl in *. lia.
    + rewrite H1. simpl. exact (step_steps_left AReader s s1 H1).
Qed.

Lemma fair_rounds_finish n s :
  reachable env c ctx h p s ->
  (steps_left s <= n)%nat ->
  terminal (run env c ctx (fair_rounds n) s) = true.
Proof.
  revert s. induction n as [|k IH]; intros s Hr Hn.
  - simpl. unfold steps_left in Hn. unfold terminal.
    destruct (pc s); simpl in Hn; try lia; reflexivity.
  - destruct (terminal s) eqn:Ht; [apply terminal_run, Ht|].
    change (fair_rounds (S k)) with ([AMain false; AReader] ++ fair_rounds k).
    rewrite run_app. apply IH.
    + apply run_reachable, Hr.
    + pose proof (round_steps_left s Hr Ht). lia.
Qed.

(** X5: whatever has happened so far, twelve rounds in which each goroutine
    gets a turn bring [Do] to its end: it has returned, or panicked. *)
Theorem Do_fair_finish sched :
  terminal (Do env c ctx h p (sched ++ fair_rounds 12)) = true.
Proof.
  unfold Do. rewrite run_app. apply fair_rounds_finish.
  - apply run_reachable, reach_init.
  - pose proof (run_steps_left sched (init h p)) as H.
    change (steps_left (init h p)) with 12%nat in H. exact H.
Qed.

End Progress.

Section WellFormed.

Variable env : Env.
Variable c : httpClient.
Variable cx : Context.
Variable h : list Request.
Variable p : nat.
Variable r : Request.

Hypothesis Hp : h !! p = Some r.
Hypothesis Hnet : net_http_Do env (client c) (with_ctx r cx) <> (None, None).

Lemma NoPanic_step a s s' :
  Inv (Some cx) s -> HeapInv (Some cx) h p s -> SentInv env c s ->
  NoPanic s ->
  step env c (Some cx) a s = Some s' -> NoPanic s'.
Proof.
  intros [_ HI] HH HS [Hpc Hpan] Hs.
  destruct a as [b| |e]; simpl in Hs.
  - unfold HeapInv in HH. rewrite Hp in HH. unfold SentInv in HS.
    unfold main_step in Hs. revert HI HH HS Hpc Hpan Hs. open_state s. simpl.
    intros HI HH HS Hpc Hpan Hs. subst pn0.
    destruct pc0; try (destruct (Hpc eq_refl)); destruct HH as [-> ->].
    + rewrite Hp in Hs. injection Hs as <-. split; [discriminate|reflexivity].
    + rewrite (list_lookup_middle h [] _ (length h) eq_refl) in Hs.
      destruct (net_http_Do env (client c) (with_ctx r cx)) as [rp [e|]];
        injection Hs as <-; split; discriminate || reflexivity.
    + destruct sn0 as [[cl r']|].
      * destruct HS as (-> & Hl & HS).
        rewrite (list_lookup_middle h [] _ (length h) eq_refl) in Hl.
        injection Hl as <-.
        destruct (net_http_Do env (client c) (with_ctx r cx)) as [rp [e|]].
        -- destruct HS as ([=] & _).
        -- destruct HS as (Hrs & _). simpl in Hrs. subst rs0.
           destruct rp as [rp|]; [|destruct (Hnet eq_refl)].
           injection Hs as <-. split; discriminate || reflexivity.
      * destruct HS as (_ & [[=] | [[=] | [=]]]).
    + injection Hs as <-. split; discriminate || reflexivity.
    + unfold ctx_ready in Hs. simpl in Hs.
      destruct (ctx_can_cancel cx && _), dn0, b; try discriminate Hs;
        injection Hs as <-; split; discriminate || reflexivity.
    + destruct dn0; [|discriminate Hs]. injection Hs as <-.
      split; discriminate || reflexivity.
    + destruct rs0; [|discriminate Hs]. injection Hs as <-.
      split; discriminate || reflexivity.
    + injection Hs as <-. simpl. destruct df0; split; discriminate || reflexivity.
    + destruct rs0; [|discriminate Hs]. injection Hs as <-.
      split; discriminate || reflexivity.
    + discriminate Hs.
  - unfold reader_step in Hs. revert Hpc Hpan Hs. unfold NoPanic.
    open_state s. simpl. intros Hpc Hpan Hs. destruct rd0; crush.
  - unfold cancel_step in Hs. revert Hpc Hpan Hs. unfold NoPanic.
    open_state s. simpl. intros Hpc Hpan Hs. crush.
Qed.

Lemma reachable_NoPanic s :
  reachable env c (Some cx) h p s -> NoPanic s.
Proof.
  induction 1 as [|a s s' Hr IH Hs].
  - split; [discriminate | reflexivity].
  - destruct (reachable_Inv _ _ _ _ _ _ Hr) as (HI & HH & HS).
    exact (NoPanic_step _ _ _ HI HH HS IH Hs).
Qed.

(** X7: with a context, a request and a round trip that gives a response or
    an error, [Do] never panics. *)
Theorem Do_never_panics sched :
  pc (Do env c (Some cx) h p sched) <> PPanicked /\
  panicking (Do env c (Some cx) h p sched) = false.
Proof. apply reachable_NoPanic, Do_reachable. Qed.

(** X8: with a context, a request and a round trip that gives a response or
    an error, twelve rounds in which each goroutine gets a turn make [Do]
    return, whatever has happened before. *)
Theorem Do_returns_fair sched :
  pc (Do env c (Some cx) h p (sched ++ fair_rounds 12)) = PReturned.
Proof.
  pose proof (reachable_NoPanic _
                (Do_reachable env c (Some cx) h p (sched ++ fair_rounds 12)))
    as [Hnp _].
  assert (Ht : terminal (Do env c (Some cx) h p (sched ++ fair_rounds 12))
               = true).
  { unfold Do. rewrite run_app.
    apply (fair_rounds_finish env c (Some cx) h p).
    - apply run_reachable, reach_init.
    - pose proof (run_steps_left env c (Some cx) sched (init h p)) as H.
      change (steps_left (init h p)) with 12%nat in H. exact H. }
  unfold terminal in Ht.
  destruct (pc (Do env c (Some cx) h p (sched ++ fair_rounds 12)));
    try discriminate Ht; [reflexivity | destruct (Hnp eq_refl)].
Qed.

End WellFormed.

Section Reads.

Variable env : Env.
Variable c : httpClient.
Variable ctx : option Context.
Variable h : list Request.
Variable p : nat.

(** While the reader is at work and a context was supplied, the caller is
    waiting in the select or in the join, and has closed nothing. *)
Lemma reader_at_work s :
  Inv ctx s -> is_Some ctx ->
  reader s = RRead \/ reader s = RSignal ->
  (pc s = PSelect \/ pc s = PJoin) /\ closes s = 0%nat.
Proof.
  open_state s. unfold Inv. simpl. intros [_ HI] Hctx Hrd.
  destruct pc0; crush.
Qed.

(** The calling goroutine leaves the read's outcome and the context alone,
    and replaces [resp] only before any read. *)
Lemma main_step_frame b s s' :
  Inv ctx s -> main_step env c ctx b s = Some s' ->
  read_out s' = read_out s /\ ctx_err s' = ctx_err s /\
  (resp s' = resp s \/ read_out s = None).
Proof.
  open_state s. unfold Inv, main_step. simpl. intros [_ HI] Hs.
  destruct pc0; crush.
Qed.

Lemma ReadInv_init : ReadInv ctx (init h p).
Proof. exact I. Qed.

Lemma ReadInv_step a s s' :
  Inv ctx s -> ReadInv ctx s ->
  step env c ctx a s = Some s' -> ReadInv ctx s'.
Proof.
  intros HI HR Hs. destruct a as [b| |e]; simpl in Hs.
  - destruct (main_step_frame _ _ _ HI Hs) as (Hro & Hce & Hrs).
    unfold ReadInv in *. rewrite Hro, Hce.
    destruct (read_out s) as [out|]; [|exact I].
    destruct Hrs as [-> | [=]]. exact HR.
  - unfold reader_step in Hs. destruct (reader s) eqn:Hrd; try discriminate.
    + destruct (resp s) as [r|] eqn:Hresp; [|discriminate].
      destruct (rc_ReadAll (Body r) (closes s) (ctx_err s)) as [b e] eqn:Hread.
      injection Hs as <-. unfold ReadInv. simpl.
      exists r, (closes s), (ctx_err s). rewrite Hread.
      repeat split; auto.
      intros Hctx. apply (reader_at_work s HI Hctx). left. exact Hrd.
    + injection Hs as <-. exact HR.
  - unfold cancel_step in Hs. destruct ctx as [cx|]; [|discriminate].
    destruct (ctx_can_cancel cx); [|discriminate].
    destruct (ctx_err s) eqn:Hce; [discriminate|].
    injection Hs as <-. unfold ReadInv in *. simpl.
    destruct (read_out s) as [out|]; [|exact I].
    destruct HR as (r & n & ce & Hr & Hout & Hn & Hc).
    exists r, n, ce. repeat split; auto.
    left. destruct Hc as [-> | ->]; [reflexivity | exact Hce].
Qed.

Lemma reachable_ReadInv s :
  reachable env c ctx h p s -> ReadInv ctx s.
Proof.
  induction 1 as [|a s s' Hr IH Hs]; [apply ReadInv_init|].
  destruct (reachable_Inv _ _ _ _ _ _ Hr) as (HI & _).
  exact (ReadInv_step _ _ _ HI IH Hs).
Qed.

End Reads.

Section Results.

Variable env : Env.
Variable c : httpClient.
Variable ctx : option Context.
Variable h : list Request.
Variable p : nat.

(** Once [Do] has returned, [resp] is what the round trip gave. *)
Lemma returned_resp sched r0 rp e :
  pc (Do env c ctx h p sched) = PReturned ->
  h !! p = Some r0 ->
  net_http_Do env (client c) (bind_ctx ctx r0) = (rp, e) ->
  (e = None -> resp (Do env c ctx h p sched) = rp) /\
  (is_Some e -> path (Do env c ctx h p sched) = None).
Proof.
  intros Hpc Hp Hnet.
  destruct (returned_sent _ _ _ _ _ _ Hpc) as (r1 & Hr1 & Hsent).
  assert (r1 = r0) as -> by congruence.
  destruct (Do_invariants env c ctx h p sched) as (_ & _ & HS).
  cbv zeta in HS. unfold SentInv in HS. rewrite Hsent, Hnet in HS.
  destruct e as [e|].
  - destruct HS as (_ & _ & _ & _ & Hpath).
    split; [discriminate | intros _; exact Hpath].
  - destruct HS as (_ & _ & Hresp & _).
    split; [intros _; exact Hresp | intros [? [=]]].
Qed.

(** X1: on the normal-completion path [Do] returns the response of the round
    trip together with the bytes and the error of the read, as they are. *)
Theorem Do_normal_result sched :
  pc (Do env c ctx h p sched) = PReturned ->
  path (Do env c ctx h p sched) = Some PathDone ->
  exists r0 rp b e,
    h !! p = Some r0 /\
    net_http_Do env (client c) (bind_ctx ctx r0) = (Some rp, None) /\
    read_out (Do env c ctx h p sched) = Some (b, e) /\
    result (Do env c ctx h p sched) = Some (Some rp, b, e).
Proof.
  intros Hpc Hpath.
  destruct (returned_sent _ _ _ _ _ _ Hpc) as (r0 & Hr0 & _).
  destruct (net_http_Do env (client c) (bind_ctx ctx r0)) as [rp e] eqn:Hnet.
  destruct (returned_resp sched r0 rp e Hpc Hr0 Hnet) as [Hok Hfail].
  pose proof (returned_state _ _ _ _ _ sched Hpc) as H. cbv zeta in H.
  rewrite Hpath in H.
  destruct H as (_ & _ & _ & Hres & r & Hr & _ & Hro).
  destruct e as [e|].
  - rewrite Hfail in Hpath by eauto. discriminate.
  - rewrite (Hok eq_refl) in Hr. subst rp. rewrite (Hok eq_refl) in Hres.
    exists r0, r, (body (Do env c ctx h p sched)),
      (err (Do env c ctx h p sched)). auto.
Qed.

(** X2: when the round trip succeeds and the context has not been cancelled
    by the time [Do] has returned, [Do] returns the response with exactly
    what [ReadAll] gives on the body, unclosed and uncancelled. *)
Theorem Do_uncancelled_result sched r0 rp :
  h !! p = Some r0 ->
  net_http_Do env (client c) (bind_ctx ctx r0) = (Some rp, None) ->
  pc (Do env c ctx h p sched) = PReturned ->
  ctx_err (Do env c ctx h p sched) = None ->
  result (Do env c ctx h p sched)
  = Some (Some rp, fst (rc_ReadAll (Body rp) 0 None),
          snd (rc_ReadAll (Body rp) 0 None)).
Proof.
  intros Hp Hnet Hpc Hce.
  destruct (returned_resp sched r0 (Some rp) None Hpc Hp Hnet) as [Hresp _].
  specialize (Hresp eq_refl).
  destruct (returned_sent _ _ _ _ _ _ Hpc) as (r1 & Hr1 & Hsent).
  assert (r1 = r0) as -> by congruence.
  assert (Hok : round_trip_ok env (Do env c ctx h p sched)).
  { unfold round_trip_ok. rewrite Hsent, Hnet. reflexivity. }
  apply (returned_round_trip _ _ _ _ _ sched Hpc) in Hok.
  pose proof (returned_state _ _ _ _ _ sched Hpc) as H. cbv zeta in H.
  pose proof (reachable_ReadInv _ _ _ _ _ _ (Do_reachable env c ctx h p sched))
    as HR.
  unfold ReadInv in HR.
  destruct (path (Do env c ctx h p sched)) as [[]|].
  - destruct H as (_ & _ & _ & _ & r & _ & _ & _ & ce & Hce' & _). congruence.
  - destruct H as (_ & _ & Hctx & Hres & r & Hr & _ & Hro).
    rewrite Hro in HR. destruct HR as (r' & n & ce & Hr' & Hout & Hn & Hc).
    rewrite (Hn Hctx) in Hout.
    assert (ce = None) as -> by (destruct Hc; congruence).
    assert (r' = rp) as -> by congruence.
    rewrite Hres, Hresp, <- Hout. reflexivity.
  - destruct Hok as [? [=]].
Qed.

(** X3: what [Do] returns is either (nil, nil, a non-nil error), when the
    round trip failed, or a non-nil response, when it succeeded; never
    (nil, nil, nil). *)
Theorem Do_result_shape sched :
  pc (Do env c ctx h p sched) = PReturned ->
  match result (Do env c ctx h p sched) with
  | Some (None, b, e) =>
      b = None /\ is_Some e /\ ~ round_trip_ok env (Do env c ctx h p sched)
  | Some (Some _, _, _) => round_trip_ok env (Do env c ctx h p sched)
  | None => False
  end.
Proof.
  intros Hpc. pose proof (returned_round_trip _ _ _ _ _ sched Hpc) as Hiff.
  pose proof (returned_state _ _ _ _ _ sched Hpc) as H. cbv zeta in H.
  destruct (path (Do env c ctx h p sched)) as [pth|].
  - destruct H as (_ & _ & _ & -> & r & -> & _). apply Hiff. eauto.
  - destruct H as (_ & _ & _ & _ & _ & e & ->).
    repeat split; eauto. intros Hok. apply Hiff in Hok.
    destruct Hok as [? [=]].
Qed.

(** X4: with a context supplied, while the reading goroutine is at [ReadAll]
    or at [close(done)] the caller is waiting in the select or in the join
    and has not called [Close]. *)
Theorem Do_reader_undisturbed sched :
  is_Some ctx ->
  reader (Do env c ctx h p sched) = RRead \/
  reader (Do env c ctx h p sched) = RSignal ->
  (pc (Do env c ctx h p sched) = PSelect \/
   pc (Do env c ctx h p sched) = PJoin) /\
  closes (Do env c ctx h p sched) = 0%nat.
Proof.
  intros Hctx Hrd. destruct (Do_invariants env c ctx h p sched) as (HI & _).
  exact (reader_at_work ctx _ HI Hctx Hrd).
Qed.

(** X9: a panic after the defer statement only happens with a nil context,
    and by the time [Do] is left the deferred [Close] has run, once, and no
    result has been produced. *)
Theorem Do_panic_closes sched :
  pc (Do env c ctx h p sched) = PPanicked ->
  deferred (Do env c ctx h p sched) = true ->
  ctx = None /\ closes (Do env c ctx h p sched) = 1%nat /\
  result (Do env c ctx h p sched) = None.
Proof.
  intros Hpc Hdef. destruct (Do_invariants env c ctx h p sched) as ((_ & HI) & _).
  cbv zeta in HI. rewrite Hpc, Hdef in HI.
  destruct HI as (_ & _ & Hres & Hctx & _ & _ & Hcl). auto.
Qed.

End Results.

Lemma Do_normal_result_witness :
  exists r0 rp b e,
    [Sample.get_foo] !! 0%nat = Some r0 /\
    net_http_Do Sample.env_ok (client Sample.a_client)
      (bind_ctx (Some Sample.a_ctx) r0) = (Some rp, None) /\
    read_out (Do Sample.env_ok Sample.a_client (Some Sample.a_ctx)
                [Sample.get_foo] 0 Sample.sched_done) = Some (b, e) /\
    result (Do Sample.env_ok Sample.a_client (Some Sample.a_ctx)
              [Sample.get_foo] 0 Sample.sched_done) = Some (Some rp, b, e).
Proof.
  exact (Do_normal_result Sample.env_ok Sample.a_client (Some Sample.a_ctx)
           [Sample.get_foo] 0%nat Sample.sched_done eq_refl eq_refl).
Defined.

Lemma Do_uncancelled_result_witness :
  result (Do Sample.env_ok Sample.a_client (Some Sample.a_ctx)
            [Sample.get_foo] 0 Sample.sched_done)
  = Some (Some Sample.resp_ok, Some Sample.ok_bytes, None).
Proof.
  exact (Do_uncancelled_result Sample.env_ok Sample.a_client
           (Some Sample.a_ctx) [Sample.get_foo] 0%nat Sample.sched_done
           Sample.get_foo Sample.resp_ok eq_refl eq_refl eq_refl eq_refl).
Defined.

Lemma Do_result_shape_witness :
  ~ round_trip_ok Sample.env_refused
      (Do Sample.env_refused Sample.a_client (Some Sample.a_ctx)
         [Sample.get_foo] 0 Sample.sched_done) /\
  round_trip_ok Sample.env_ok
    (Do Sample.env_ok Sample.a_client (Some Sample.a_ctx)
       [Sample.get_foo] 0 Sample.sched_done).
Proof.
  split.
  - exact (proj2 (proj2 (Do_result_shape Sample.env_refused Sample.a_client
                           (Some Sample.a_ctx) [Sample.get_foo] 0%nat
                           Sample.sched_done eq_refl))).
  - exact (Do_result_shape Sample.env_ok Sample.a_client
             (Some Sample.a_ctx) [Sample.get_foo] 0%nat
             Sample.sched_done eq_refl).
Defined.

Lemma Do_reader_undisturbed_witness :
  (pc (Do Sample.env_ok Sample.a_client (Some Sample.a_ctx)
         [Sample.get_foo] 0 (take 5 Sample.sched_done)) = PSelect \/
   pc (Do Sample.env_ok Sample.a_client (Some Sample.a_ctx)
         [Sample.get_foo] 0 (take 5 Sample.sched_done)) = PJoin) /\
  closes (Do Sample.env_ok Sample.a_client (Some Sample.a_ctx)
            [Sample.get_foo] 0 (take 5 Sample.sched_done)) = 0%nat.
Proof.
  apply (Do_reader_undisturbed Sample.env_ok Sample.a_client
           (Some Sample.a_ctx) [Sample.get_foo] 0%nat
           (take 5 Sample.sched_done)).
  - exists Sample.a_ctx. reflexivity.
  - right. reflexivity.
Defined.

Lemma Do_never_panics_witness :
  pc (Do Sample.env_ok Sample.a_client (Some Sample.a_ctx)
        [Sample.get_foo] 0 Sample.sched_cancel) <> PPanicked /\
  panicking (Do Sample.env_ok Sample.a_client (Some Sample.a_ctx)
               [Sample.get_foo] 0 Sample.sched_cancel) = false.
Proof.
  apply (Do_never_panics Sample.env_ok Sample.a_client Sample.a_ctx
           [Sample.get_foo] 0%nat Sample.get_foo).
  - reflexivity.
  - discriminate.
Defined.

Lemma Do_returns_fair_witness :
  pc (Do Sample.env_ok Sample.a_client (Some Sample.a_ctx)
        [Sample.get_foo] 0
        ([ACancel Sample.Canceled; AReader] ++ fair_rounds 12)) = PReturned.
Proof.
  apply (Do_returns_fair Sample.env_ok Sample.a_client Sample.a_ctx
           [Sample.get_foo] 0%nat Sample.get_foo).
  - reflexivity.
  - discriminate.
Defined.

Lemma Do_panic_closes_witness :
  @None Context = None /\
  closes (Do Sample.env_ok Sample.a_client None [Sample.get_foo] 0
            (replicate 6 (AMain false))) = 1%nat /\
  result (Do Sample.env_ok Sample.a_client None [Sample.get_foo] 0
            (replicate 6 (AMain false))) = None.
Proof.
  exact (Do_panic_closes Sample.env_ok Sample.a_client None
           [Sample.get_foo] 0%nat (replicate 6 (AMain false))
           eq_refl eq_refl).
Defined.

Lemma NewClient_client_xor_error_witness :
  (@None httpClient = None /\ is_Some (Some Sample.denied)) \/
  (is_Some (@None httpClient) /\ Some Sample.denied = None).
Proof.
  exact (NewClient_client_xor_error None Sample.cfg_denied None
           None (Some Sample.denied) eq_refl).
Defined.
